(** * GeosCore/rdtsc.c: reading the processor's timestamp counter

    The C file defines one function,

<<
    inline uint64_t rdtsc()
    {
        uint32_t lo, hi;
        __asm__ __volatile__("rdtsc" : "=a"(lo), "=d"(hi));
        return ((uint64_t)hi << 32) | lo;
    }
>>

    which the specification calls [readCycleCount].  Unsigned C integers
    are modelled as [Z] with their wrap-around written out; the inline
    assembly statement is a call into a [Processor] interface, and the
    function threads the machine state through that call. *)

From Stdlib Require Import ZArith Lia Bool List Sorted.
Import ListNotations.
Local Open Scope Z_scope.

(** ** Unsigned fixed-width integers *)

(** A [w]-bit unsigned object only ever holds a value modulo [2^w]. *)
Definition wrap (w x : Z) : Z := x mod 2 ^ w.

(** Conversion to [uint32_t] and to [uint64_t]. *)
Definition to_uint32 (x : Z) : Z := wrap 32 x.
Definition to_uint64 (x : Z) : Z := wrap 64 x.

(** [x << n] computed in [uint64_t]: bits shifted past bit 63 are lost. *)
Definition shl64 (x n : Z) : Z := to_uint64 (Z.shiftl x n).

(** [x | y] on [uint64_t] operands. *)
Definition or64 (x y : Z) : Z := Z.lor x y.

Definition is_uint32 (x : Z) : Prop := 0 <= x < 2 ^ 32.
Definition is_uint64 (x : Z) : Prop := 0 <= x < 2 ^ 64.

(** ** The function *)

(** The asm statement of lines 6-9.  Executing the instruction either
    traps ([None]) or leaves a value in EAX, a value in EDX and a successor
    machine state; the statement has no other output operand and no
    clobber. *)
Class Processor (machine : Type) : Type :=
  { asm_rdtsc : machine -> option (Z * Z * machine) }.

(** Line 10, the returned expression [((uint64_t)hi << 32) | lo].  [hi] is
    cast to [uint64_t] before the shift; [lo] is converted to [uint64_t]
    by the usual arithmetic conversions of [|]. *)
Definition rdtsc_value (hi lo : Z) : Z :=
  or64 (shl64 (to_uint64 hi) 32) (to_uint64 lo).

(** Lines 3-11, [rdtsc()].  The output operands ["=a"(lo)] and ["=d"(hi)]
    store EAX and EDX into the two [uint32_t] locals. *)
Definition rdtsc {machine : Type} `{Processor machine} (m : machine)
  : option (Z * machine) :=
  match asm_rdtsc m with
  | None => None
  | Some (eax, edx, m') =>
      let lo := to_uint32 eax in
      let hi := to_uint32 edx in
      Some (rdtsc_value hi lo, m')
  end.

(** ** Processors *)

(** A mock hardware interface: the instruction delivers two fixed values
    and changes nothing. *)
Record Mock : Type := mkMock { mock_eax : Z; mock_edx : Z }.

#[export] Instance Mock_processor : Processor Mock :=
  {| asm_rdtsc := fun m => Some (mock_eax m, mock_edx m, m) |}.

(** Modelled from the spec: the logical core that executes the
    instruction, which is hardware and has no source under src/.  It holds
    a free-running 64-bit cycle counter; the instruction captures the
    counter and exposes it split across two 32-bit outputs, a low half and
    a high half, and traps where the instruction is unavailable.  [memory]
    stands for all state outside the core that a caller could observe. *)
Record Core : Type := mkCore
  { tsc : Z;
    tsc_available : bool;
    memory : Z -> Z }.

Definition Core_rdtsc (c : Core) : option (Z * Z * Core) :=
  if tsc_available c
  then Some (tsc c mod 2 ^ 32, (tsc c / 2 ^ 32) mod 2 ^ 32, c)
  else None.

#[export] Instance Core_processor : Processor Core :=
  {| asm_rdtsc := Core_rdtsc |}.

(** The counter register holds a 64-bit value. *)
Definition Core_ok (c : Core) : Prop := is_uint64 (tsc c).

(** Modelled from the spec: [d] cycles pass on the core between two
    calls.  The counter is free-running with natural wrap-around at the
    64-bit boundary; nothing else about the core changes. *)
Definition elapse (d : Z) (c : Core) : Core :=
  mkCore (to_uint64 (tsc c + d)) (tsc_available c) (memory c).

(** A caller on one core: a call, then [d] cycles of other work, for each
    [d] of the list in turn.  The results come back in call order. *)
Fixpoint calls (ds : list Z) (c : Core) : option (list Z * Core) :=
  match ds with
  | [] => Some ([], c)
  | d :: ds' =>
      match rdtsc c with
      | None => None
      | Some (v, c1) =>
          match calls ds' (elapse d c1) with
          | None => None
          | Some (vs, c2) => Some (v :: vs, c2)
          end
      end
  end.

(** The same stretch of time with no call made at all. *)
Definition idle (ds : list Z) (c : Core) : Core :=
  fold_left (fun c' d => elapse d c') ds c.

(** A processor wrapped with a meter that counts the instructions the
    function has executed on it. *)
Record Metered (machine : Type) : Type := mkMetered
  { inner : machine;
    executed : nat }.
Arguments mkMetered {machine} _ _.
Arguments inner {machine} _.
Arguments executed {machine} _.

#[export] Instance Metered_processor {machine : Type} `{Processor machine}
  : Processor (Metered machine) :=
  {| asm_rdtsc := fun m =>
       match asm_rdtsc (inner m) with
       | None => None
       | Some (eax, edx, m') => Some (eax, edx, mkMetered m' (S (executed m)))
       end |}.

(** ** Arithmetic of the returned expression *)

Lemma two32_two64 : 2 ^ 64 = 2 ^ 32 * 2 ^ 32.
Proof. reflexivity. Qed.

Lemma to_uint32_id x : is_uint32 x -> to_uint32 x = x.
Proof. intros Hx. apply Z.mod_small. exact Hx. Qed.

Lemma to_uint64_id x : is_uint64 x -> to_uint64 x = x.
Proof. intros Hx. apply Z.mod_small. exact Hx. Qed.

Lemma to_uint32_range x : is_uint32 (to_uint32 x).
Proof. apply Z.mod_pos_bound. reflexivity. Qed.

Lemma to_uint64_range x : is_uint64 (to_uint64 x).
Proof. apply Z.mod_pos_bound. reflexivity. Qed.

Lemma uint32_is_uint64 x : is_uint32 x -> is_uint64 x.
Proof. unfold is_uint32, is_uint64. lia. Qed.

(** The shifted high half and the low half have no bit in common. *)
Lemma halves_disjoint hi lo :
  is_uint32 lo -> Z.land (Z.shiftl hi 32) lo = 0.
Proof.
  intros Hlo. apply Z.bits_inj'. intros n Hn.
  rewrite Z.land_spec, Z.bits_0.
  destruct (Z.ltb_spec n 32) as [Hlt | Hge].
  - rewrite Z.shiftl_spec_low by exact Hlt. reflexivity.
  - rewrite <- (to_uint32_id lo Hlo). unfold to_uint32, wrap.
    rewrite Z.mod_pow2_bits_high by lia. apply andb_false_r.
Qed.

(** So the bitwise or is an addition. *)
Lemma lor_halves hi lo :
  is_uint32 lo -> Z.lor (Z.shiftl hi 32) lo = hi * 2 ^ 32 + lo.
Proof.
  intros Hlo.
  pose proof (Z.add_lor_land (Z.shiftl hi 32) lo) as Hadd.
  rewrite (halves_disjoint hi lo Hlo), Z.add_0_r in Hadd.
  rewrite Hadd, Z.shiftl_mul_pow2 by lia. reflexivity.
Qed.

Lemma halves_range hi lo :
  is_uint32 hi -> is_uint32 lo -> is_uint64 (hi * 2 ^ 32 + lo).
Proof. unfold is_uint32, is_uint64. rewrite two32_two64. nia. Qed.

Lemma shl64_high hi : is_uint32 hi -> shl64 (to_uint64 hi) 32 = Z.shiftl hi 32.
Proof.
  intros Hhi. unfold shl64.
  rewrite (to_uint64_id hi) by (apply uint32_is_uint64; exact Hhi).
  apply to_uint64_id. rewrite Z.shiftl_mul_pow2 by lia.
  pose proof (halves_range hi 0 Hhi) as Hr.
  rewrite Z.add_0_r in Hr. apply Hr. unfold is_uint32. lia.
Qed.

Lemma rdtsc_value_lor hi lo :
  is_uint32 hi -> is_uint32 lo ->
  rdtsc_value hi lo = Z.lor (Z.shiftl hi 32) lo.
Proof.
  intros Hhi Hlo. unfold rdtsc_value, or64.
  rewrite (shl64_high hi Hhi).
  rewrite (to_uint64_id lo) by (apply uint32_is_uint64; exact Hlo).
  reflexivity.
Qed.

Lemma rdtsc_value_sum hi lo :
  is_uint32 hi -> is_uint32 lo -> rdtsc_value hi lo = hi * 2 ^ 32 + lo.
Proof.
  intros Hhi Hlo. rewrite (rdtsc_value_lor hi lo Hhi Hlo).
  apply lor_halves. exact Hlo.
Qed.

Lemma rdtsc_value_range hi lo :
  is_uint32 hi -> is_uint32 lo -> is_uint64 (rdtsc_value hi lo).
Proof.
  intros Hhi Hlo. rewrite (rdtsc_value_sum hi lo Hhi Hlo).
  apply halves_range; assumption.
Qed.

(** The two halves can be read back from the result. *)
Lemma halves_high hi lo :
  is_uint32 lo -> Z.shiftr (hi * 2 ^ 32 + lo) 32 = hi.
Proof.
  intros Hlo. rewrite Z.shiftr_div_pow2 by lia.
  rewrite Z.add_comm, Z.div_add by lia.
  rewrite Z.div_small by exact Hlo. reflexivity.
Qed.

Lemma halves_low hi lo :
  is_uint32 lo -> (hi * 2 ^ 32 + lo) mod 2 ^ 32 = lo.
Proof.
  intros Hlo. rewrite Z.add_comm, Z.mod_add by lia.
  apply Z.mod_small. exact Hlo.
Qed.

(** Splitting a counter value into halves and joining them again gives the
    value back, modulo [2^64]. *)
Lemma split_range t :
  is_uint32 (t mod 2 ^ 32) /\ is_uint32 ((t / 2 ^ 32) mod 2 ^ 32).
Proof. split; apply Z.mod_pos_bound; reflexivity. Qed.

Lemma rdtsc_value_split t :
  rdtsc_value ((t / 2 ^ 32) mod 2 ^ 32) (t mod 2 ^ 32) = to_uint64 t.
Proof.
  destruct (split_range t) as [Hlo Hhi].
  rewrite (rdtsc_value_sum _ _ Hhi Hlo).
  unfold to_uint64, wrap. rewrite two32_two64.
  rewrite Z.rem_mul_r by lia. lia.
Qed.

(** ** The function on the two processors *)

(** On a core the function returns the counter and leaves the core as it
    found it; it traps exactly where the instruction does. *)
Lemma rdtsc_Core (c : Core) :
  rdtsc c = if tsc_available c then Some (to_uint64 (tsc c), c) else None.
Proof.
  unfold rdtsc. cbn [asm_rdtsc Core_processor]. unfold Core_rdtsc.
  destruct (tsc_available c); [ | reflexivity ].
  destruct (split_range (tsc c)) as [Hlo Hhi].
  rewrite (to_uint32_id _ Hlo), (to_uint32_id _ Hhi), rdtsc_value_split.
  reflexivity.
Qed.

Lemma elapse_available d c : tsc_available (elapse d c) = tsc_available c.
Proof. reflexivity. Qed.

Lemma elapse_memory d c : memory (elapse d c) = memory c.
Proof. reflexivity. Qed.

(** The counter stays a 64-bit value as time passes. *)
Lemma elapse_ok d c : Core_ok (elapse d c).
Proof. apply to_uint64_range. Qed.

Lemma idle_memory ds : forall c, memory (idle ds c) = memory c.
Proof.
  induction ds as [ | d ds IH ]; intros c; [ reflexivity | ].
  unfold idle in *. cbn [fold_left]. rewrite IH. apply elapse_memory.
Qed.

(** Every call of a sequence completes, and the calls leave no trace: the
    core ends in the state it would have reached with no call made. *)
Lemma calls_idle ds : forall c,
  tsc_available c = true ->
  exists vs, calls ds c = Some (vs, idle ds c) /\ length vs = length ds.
Proof.
  induction ds as [ | d ds IH ]; intros c Hc.
  - exists []. split; reflexivity.
  - cbn [calls]. rewrite rdtsc_Core, Hc.
    destruct (IH (elapse d c)) as [vs [Hvs Hlen]].
    + rewrite elapse_available. exact Hc.
    + rewrite Hvs. exists (to_uint64 (tsc c) :: vs). split.
      * reflexivity.
      * cbn [length]. rewrite Hlen. reflexivity.
Qed.

(** ** Properties of [rdtsc] *)

(** Closed range facts, by evaluation of the two comparisons. *)
Ltac in_range := vm_compute; split; [ discriminate | reflexivity ].

(** C1. Whatever pair of 32-bit values the instruction delivers, the low
    half [L] in EAX and the high half [H] in EDX, [rdtsc] returns
    [(H << 32) | L].  On the mock hardware the boundary pairs
    (L=0, H=0), (L=0xFFFFFFFF, H=0), (L=0, H=1) and
    (L=0xFFFFFFFF, H=0xFFFFFFFF) give 0, 0xFFFFFFFF, 0x100000000 and
    0xFFFFFFFFFFFFFFFF. *)
Theorem rdtsc_concatenates :
  (forall (machine : Type) (P : Processor machine) (m m' : machine) (L H : Z),
      is_uint32 L -> is_uint32 H ->
      asm_rdtsc m = Some (L, H, m') ->
      rdtsc m = Some (Z.lor (Z.shiftl H 32) L, m'))
  /\ rdtsc (mkMock 0 0) = Some (0, mkMock 0 0)
  /\ rdtsc (mkMock 0xFFFFFFFF 0) = Some (0xFFFFFFFF, mkMock 0xFFFFFFFF 0)
  /\ rdtsc (mkMock 0 1) = Some (0x100000000, mkMock 0 1)
  /\ rdtsc (mkMock 0xFFFFFFFF 0xFFFFFFFF)
     = Some (0xFFFFFFFFFFFFFFFF, mkMock 0xFFFFFFFF 0xFFFFFFFF).
Proof.
  split; [ | repeat split; reflexivity ].
  intros machine P m m' L H HL HH Hasm.
  unfold rdtsc. rewrite Hasm. cbv zeta.
  rewrite (to_uint32_id L HL), (to_uint32_id H HH).
  rewrite (rdtsc_value_lor H L HH HL). reflexivity.
Qed.

Lemma rdtsc_concatenates_witness :
  is_uint32 0xDEADBEEF /\ is_uint32 0x12345678
  /\ rdtsc (mkMock 0xDEADBEEF 0x12345678)
     = Some (Z.lor (Z.shiftl 0x12345678 32) 0xDEADBEEF,
             mkMock 0xDEADBEEF 0x12345678).
Proof.
  split; [ in_range | split; [ in_range | ] ].
  apply (proj1 rdtsc_concatenates Mock Mock_processor
           (mkMock 0xDEADBEEF 0x12345678) (mkMock 0xDEADBEEF 0x12345678)
           0xDEADBEEF 0x12345678).
  - in_range.
  - in_range.
  - reflexivity.
Defined.

(** C2. [rdtsc] has no parameter: its only argument here is the machine
    it runs on.  Whatever it returns is one unsigned 64-bit integer; the
    only other outcome is the trap of the instruction itself, which is not
    a return. *)
Theorem rdtsc_returns_uint64
  (machine : Type) (P : Processor machine) (m : machine) :
  match rdtsc m with
  | Some (v, _) => is_uint64 v
  | None => asm_rdtsc m = None
  end.
Proof.
  unfold rdtsc. destruct (asm_rdtsc m) as [[[eax edx] m'] | ]; [ | reflexivity ].
  cbv zeta. apply rdtsc_value_range; apply to_uint32_range.
Qed.

(** C3. On a processor that executes the instruction (it does not trap),
    the call does not fail: it returns an ordinary 64-bit cycle count. *)
Theorem rdtsc_no_failure
  (machine : Type) (P : Processor machine) (m : machine) :
  asm_rdtsc m <> None ->
  exists v m', rdtsc m = Some (v, m') /\ is_uint64 v.
Proof.
  intros Hexec. unfold rdtsc.
  destruct (asm_rdtsc m) as [[[eax edx] m'] | ]; [ | contradiction ].
  eexists. exists m'. split; [ reflexivity | ].
  apply rdtsc_value_range; apply to_uint32_range.
Qed.

Lemma rdtsc_no_failure_witness :
  asm_rdtsc (mkCore 0x1FFFFFFFF true (fun _ => 0)) <> None
  /\ exists v m',
       rdtsc (mkCore 0x1FFFFFFFF true (fun _ => 0)) = Some (v, m')
       /\ is_uint64 v.
Proof.
  split.
  - discriminate.
  - apply (rdtsc_no_failure Core Core_processor
             (mkCore 0x1FFFFFFFF true (fun _ => 0))).
    discriminate.
Defined.

(** C4. A call changes nothing but its own result.  On every processor
    the state after the call is the state the instruction left, the
    function adding no write of its own.  On a core a call leaves the
    core and the memory exactly as they were; after any sequence of calls,
    with any amount of other work between them, the state is the one
    reached with no call made, and memory is untouched; and the value
    returned depends on the core's own counter only, not on memory. *)
Theorem rdtsc_frame :
  (forall (machine : Type) (P : Processor machine) (m m' : machine) (v : Z),
      rdtsc m = Some (v, m') ->
      exists eax edx, asm_rdtsc m = Some (eax, edx, m'))
  /\ (forall (c : Core) (ds : list Z),
         tsc_available c = true ->
         (exists v, rdtsc c = Some (v, c))
         /\ (exists vs, calls ds c = Some (vs, idle ds c)
                        /\ length vs = length ds
                        /\ memory (idle ds c) = memory c))
  /\ (forall (c : Core) (other : Z -> Z),
         option_map fst (rdtsc (mkCore (tsc c) (tsc_available c) other))
         = option_map fst (rdtsc c)).
Proof.
  split; [ | split ].
  - intros machine P m m' v. unfold rdtsc.
    destruct (asm_rdtsc m) as [[[eax edx] m1] | ]; [ | discriminate ].
    cbv zeta. intros Hret. injection Hret as _ Hm. subst m1.
    exists eax, edx. reflexivity.
  - intros c ds Hc. split.
    + exists (to_uint64 (tsc c)). rewrite rdtsc_Core, Hc. reflexivity.
    + destruct (calls_idle ds c Hc) as [vs [Hvs Hlen]].
      exists vs. repeat split; [ exact Hvs | exact Hlen | apply idle_memory ].
  - intros c other. rewrite !rdtsc_Core. cbn [tsc tsc_available].
    destruct (tsc_available c); reflexivity.
Qed.

Lemma rdtsc_frame_witness :
  tsc_available (mkCore 41 true (fun a => a)) = true
  /\ (exists v, rdtsc (mkCore 41 true (fun a => a))
                = Some (v, mkCore 41 true (fun a => a)))
  /\ (exists vs,
        calls [3; 0; 7] (mkCore 41 true (fun a => a))
        = Some (vs, idle [3; 0; 7] (mkCore 41 true (fun a => a)))
        /\ length vs = length [3; 0; 7]
        /\ memory (idle [3; 0; 7] (mkCore 41 true (fun a => a)))
           = memory (mkCore 41 true (fun a => a))).
Proof.
  split; [ reflexivity | ].
  apply (proj1 (proj2 rdtsc_frame) (mkCore 41 true (fun a => a)) [3; 0; 7]).
  reflexivity.
Defined.

(** C5. Two consecutive calls on one core, with [d >= 0] cycles passing
    between them and the counter neither reset nor wrapping past the
    64-bit boundary, return [a] and then [b] with [a <= b]. *)
Theorem rdtsc_monotonic (c : Core) (d : Z) :
  tsc_available c = true -> Core_ok c ->
  0 <= d -> tsc c + d < 2 ^ 64 ->
  exists a b,
    rdtsc c = Some (a, c)
    /\ rdtsc (elapse d c) = Some (b, elapse d c)
    /\ a <= b.
Proof.
  intros Hc Hok Hd Hwrap.
  exists (tsc c), (tsc c + d).
  rewrite !rdtsc_Core, elapse_available, Hc.
  cbn [elapse tsc]. unfold Core_ok in Hok.
  rewrite (to_uint64_id (tsc c) Hok).
  assert (Hsum : is_uint64 (tsc c + d)) by (unfold is_uint64 in *; lia).
  rewrite !(to_uint64_id (tsc c + d) Hsum).
  repeat split. lia.
Qed.

Lemma rdtsc_monotonic_witness :
  tsc_available (mkCore 0xFFFFFFFF true (fun _ => 0)) = true
  /\ Core_ok (mkCore 0xFFFFFFFF true (fun _ => 0))
  /\ 0 <= 1
  /\ tsc (mkCore 0xFFFFFFFF true (fun _ => 0)) + 1 < 2 ^ 64
  /\ exists a b,
       rdtsc (mkCore 0xFFFFFFFF true (fun _ => 0))
       = Some (a, mkCore 0xFFFFFFFF true (fun _ => 0))
       /\ rdtsc (elapse 1 (mkCore 0xFFFFFFFF true (fun _ => 0)))
          = Some (b, elapse 1 (mkCore 0xFFFFFFFF true (fun _ => 0)))
       /\ a <= b.
Proof.
  split; [ reflexivity | ].
  split; [ in_range | ].
  split; [ discriminate | ].
  split; [ reflexivity | ].
  apply (rdtsc_monotonic (mkCore 0xFFFFFFFF true (fun _ => 0)) 1).
  - reflexivity.
  - in_range.
  - discriminate.
  - reflexivity.
Defined.

(** C7. Two calls on one core separated by work during which the counter
    advances, by [d] cycles with [0 < d < 2^64], return different values:
    the function is not a constant. *)
Theorem rdtsc_advances (c : Core) (d : Z) :
  tsc_available c = true ->
  0 < d < 2 ^ 64 ->
  exists a b,
    rdtsc c = Some (a, c)
    /\ rdtsc (elapse d c) = Some (b, elapse d c)
    /\ a <> b.
Proof.
  intros Hc Hd.
  exists (to_uint64 (tsc c)), (to_uint64 (tsc c + d)).
  rewrite !rdtsc_Core, elapse_available, Hc.
  cbn [elapse tsc].
  rewrite (to_uint64_id (to_uint64 (tsc c + d))) by apply to_uint64_range.
  repeat split.
  unfold to_uint64, wrap. intros Heq.
  assert (Hdiv : (tsc c + d - tsc c) mod 2 ^ 64 = 0).
  { rewrite Zminus_mod, <- Heq, Z.sub_diag. reflexivity. }
  replace (tsc c + d - tsc c) with d in Hdiv by lia.
  rewrite Z.mod_small in Hdiv by lia. lia.
Qed.

Lemma rdtsc_advances_witness :
  tsc_available (mkCore 0xFFFFFFFFFFFFFFFF true (fun _ => 0)) = true
  /\ 0 < 1000 < 2 ^ 64
  /\ exists a b,
       rdtsc (mkCore 0xFFFFFFFFFFFFFFFF true (fun _ => 0))
       = Some (a, mkCore 0xFFFFFFFFFFFFFFFF true (fun _ => 0))
       /\ rdtsc (elapse 1000 (mkCore 0xFFFFFFFFFFFFFFFF true (fun _ => 0)))
          = Some (b, elapse 1000 (mkCore 0xFFFFFFFFFFFFFFFF true (fun _ => 0)))
       /\ a <> b.
Proof.
  split; [ reflexivity | ].
  split; [ split; reflexivity | ].
  apply (rdtsc_advances (mkCore 0xFFFFFFFFFFFFFFFF true (fun _ => 0)) 1000).
  - reflexivity.
  - split; reflexivity.
Defined.

(** C6. The call always comes to an end, on every processor and in every
    state, after executing the instruction once: either the instruction
    traps, or the call returns and the meter has advanced by exactly one
    instruction.  The function is a closed, non-recursive definition: no
    loop, no recursion, nothing to wait for. *)
Theorem rdtsc_terminates
  (machine : Type) (P : Processor machine) (m : Metered machine) :
  (asm_rdtsc (inner m) = None /\ rdtsc m = None)
  \/ (exists v m', rdtsc m = Some (v, m')
                   /\ executed m' = S (executed m)).
Proof.
  unfold rdtsc. cbn [asm_rdtsc Metered_processor].
  destruct (asm_rdtsc (inner m)) as [[[eax edx] m1] | ].
  - right. eexists. eexists. split; reflexivity.
  - left. split; reflexivity.
Qed.

(** C9. The concatenation loses nothing.  For 32-bit [hi] and [lo] the
    result [r] is a 64-bit value with [r >> 32 = hi] and
    [r mod 2^32 = lo]: the zero-extended low half leaves the high 32 bits
    alone.  Two pairs with the same result are the same pair, and every
    64-bit value is the result of the pair of its own halves, so pairs of
    32-bit values and 64-bit values are in bijection. *)
Theorem rdtsc_value_lossless :
  (forall hi lo : Z,
      is_uint32 hi -> is_uint32 lo ->
      Z.shiftr (rdtsc_value hi lo) 32 = hi
      /\ rdtsc_value hi lo mod 2 ^ 32 = lo
      /\ is_uint64 (rdtsc_value hi lo))
  /\ (forall hi lo hi' lo' : Z,
         is_uint32 hi -> is_uint32 lo -> is_uint32 hi' -> is_uint32 lo' ->
         rdtsc_value hi lo = rdtsc_value hi' lo' ->
         hi = hi' /\ lo = lo')
  /\ (forall r : Z,
         is_uint64 r ->
         is_uint32 (Z.shiftr r 32)
         /\ is_uint32 (r mod 2 ^ 32)
         /\ rdtsc_value (Z.shiftr r 32) (r mod 2 ^ 32) = r).
Proof.
  split; [ | split ].
  - intros hi lo Hhi Hlo.
    rewrite (rdtsc_value_sum hi lo Hhi Hlo).
    split; [ apply halves_high; exact Hlo | ].
    split; [ apply halves_low; exact Hlo | apply halves_range; assumption ].
  - intros hi lo hi' lo' Hhi Hlo Hhi' Hlo'.
    rewrite (rdtsc_value_sum hi lo Hhi Hlo), (rdtsc_value_sum hi' lo' Hhi' Hlo').
    intros Heq. split.
    + rewrite <- (halves_high hi lo Hlo), Heq. apply halves_high. exact Hlo'.
    + rewrite <- (halves_low hi lo Hlo), Heq. apply halves_low. exact Hlo'.
  - intros r Hr. rewrite Z.shiftr_div_pow2 by lia.
    assert (Hhi : is_uint32 (r / 2 ^ 32)).
    { unfold is_uint32, is_uint64 in *. split.
      - apply Z.div_pos; lia.
      - apply Z.div_lt_upper_bound; [ lia | ]. rewrite <- two32_two64. lia. }
    assert (Hlo : is_uint32 (r mod 2 ^ 32)) by (apply Z.mod_pos_bound; reflexivity).
    split; [ exact Hhi | split; [ exact Hlo | ] ].
    rewrite (rdtsc_value_sum _ _ Hhi Hlo).
    pose proof (Z.div_mod r (2 ^ 32)). lia.
Qed.

Lemma rdtsc_value_lossless_witness :
  is_uint32 0x12345678 /\ is_uint32 0xDEADBEEF
  /\ Z.shiftr (rdtsc_value 0x12345678 0xDEADBEEF) 32 = 0x12345678
  /\ rdtsc_value 0x12345678 0xDEADBEEF mod 2 ^ 32 = 0xDEADBEEF
  /\ is_uint64 (rdtsc_value 0x12345678 0xDEADBEEF).
Proof.
  split; [ in_range | split; [ in_range | ] ].
  apply (proj1 rdtsc_value_lossless 0x12345678 0xDEADBEEF); in_range.
Defined.

(** C10. The value returned is a function of the two halves the
    instruction delivered and of nothing else: two executions, on any two
    processors in any two states, in which the instruction delivers the
    same [lo] and [hi] return the same value. *)
Theorem rdtsc_deterministic
  (machine1 machine2 : Type)
  (P1 : Processor machine1) (P2 : Processor machine2)
  (m1 m1' : machine1) (m2 m2' : machine2) (lo hi : Z) :
  asm_rdtsc m1 = Some (lo, hi, m1') ->
  asm_rdtsc m2 = Some (lo, hi, m2') ->
  exists v, rdtsc m1 = Some (v, m1') /\ rdtsc m2 = Some (v, m2').
Proof.
  intros H1 H2. unfold rdtsc. rewrite H1, H2. cbv zeta.
  eexists. split; reflexivity.
Qed.

Lemma rdtsc_deterministic_witness :
  asm_rdtsc (mkMock 5 7) = Some (5, 7, mkMock 5 7)
  /\ asm_rdtsc (mkCore 0x700000005 true (fun a => a + 1))
     = Some (5, 7, mkCore 0x700000005 true (fun a => a + 1))
  /\ exists v,
       rdtsc (mkMock 5 7) = Some (v, mkMock 5 7)
       /\ rdtsc (mkCore 0x700000005 true (fun a => a + 1))
          = Some (v, mkCore 0x700000005 true (fun a => a + 1)).
Proof.
  split; [ reflexivity | split; [ reflexivity | ] ].
  apply (rdtsc_deterministic Mock Core Mock_processor Core_processor
           (mkMock 5 7) (mkMock 5 7)
           (mkCore 0x700000005 true (fun a => a + 1))
           (mkCore 0x700000005 true (fun a => a + 1)) 5 7);
    reflexivity.
Defined.

(** ** Further properties of [rdtsc] *)

(** X1. Only the low 32 bits of each register reach the result: whatever
    integers the instruction leaves in EAX and EDX, [rdtsc] returns
    [(EDX mod 2^32) * 2^32 + (EAX mod 2^32)].  The shift is done in 64
    bits, so no bit of the high half is lost, and the or of the two halves
    is their sum. *)
Theorem rdtsc_truncates_registers
  (machine : Type) (P : Processor machine) (m m' : machine) (eax edx : Z) :
  asm_rdtsc m = Some (eax, edx, m') ->
  rdtsc m = Some ((edx mod 2 ^ 32) * 2 ^ 32 + eax mod 2 ^ 32, m').
Proof.
  intros Hasm. unfold rdtsc. rewrite Hasm. cbv zeta.
  rewrite rdtsc_value_sum by apply to_uint32_range.
  reflexivity.
Qed.

Lemma rdtsc_truncates_registers_witness :
  asm_rdtsc (mkMock 0xAAAAAAAA00000005 (-1))
  = Some (0xAAAAAAAA00000005, -1, mkMock 0xAAAAAAAA00000005 (-1))
  /\ rdtsc (mkMock 0xAAAAAAAA00000005 (-1))
     = Some (((-1) mod 2 ^ 32) * 2 ^ 32 + 0xAAAAAAAA00000005 mod 2 ^ 32,
             mkMock 0xAAAAAAAA00000005 (-1)).
Proof.
  split; [ reflexivity | ].
  apply (rdtsc_truncates_registers Mock Mock_processor
           (mkMock 0xAAAAAAAA00000005 (-1)) (mkMock 0xAAAAAAAA00000005 (-1))
           0xAAAAAAAA00000005 (-1)).
  reflexivity.
Defined.

(** X2. Bit layout of the returned expression: for 32-bit halves, bit [n]
    of the result is bit [n] of [lo] when [n < 32] and bit [n - 32] of
    [hi] from there on. *)
Theorem rdtsc_value_bits (hi lo n : Z) :
  is_uint32 hi -> is_uint32 lo -> 0 <= n ->
  Z.testbit (rdtsc_value hi lo) n
  = if n <? 32 then Z.testbit lo n else Z.testbit hi (n - 32).
Proof.
  intros Hhi Hlo Hn.
  rewrite (rdtsc_value_lor hi lo Hhi Hlo), Z.lor_spec.
  destruct (Z.ltb_spec n 32) as [Hlt | Hge].
  - rewrite Z.shiftl_spec_low by exact Hlt. reflexivity.
  - rewrite Z.shiftl_spec by exact Hn.
    rewrite <- (to_uint32_id lo Hlo) at 1. unfold to_uint32, wrap.
    rewrite Z.mod_pow2_bits_high by lia. apply orb_false_r.
Qed.

Lemma rdtsc_value_bits_witness :
  is_uint32 0x80000000 /\ is_uint32 1 /\ 0 <= 63
  /\ Z.testbit (rdtsc_value 0x80000000 1) 63
     = if 63 <? 32 then Z.testbit 1 63 else Z.testbit 0x80000000 (63 - 32).
Proof.
  split; [ in_range | split; [ in_range | split; [ discriminate | ] ] ].
  apply (rdtsc_value_bits 0x80000000 1 63).
  - in_range.
  - in_range.
  - discriminate.
Defined.

(** X3. The returned expression orders pairs of halves lexicographically,
    high half first: one result is at most another exactly when its high
    half is smaller, or the high halves agree and its low half is at most
    the other's. *)
Theorem rdtsc_value_order (hi lo hi' lo' : Z) :
  is_uint32 hi -> is_uint32 lo -> is_uint32 hi' -> is_uint32 lo' ->
  (rdtsc_value hi lo <= rdtsc_value hi' lo'
   <-> hi < hi' \/ (hi = hi' /\ lo <= lo')).
Proof.
  intros Hhi Hlo Hhi' Hlo'.
  rewrite (rdtsc_value_sum hi lo Hhi Hlo), (rdtsc_value_sum hi' lo' Hhi' Hlo').
  unfold is_uint32 in *.
  change (2 ^ 32) with 4294967296 in *. lia.
Qed.

Lemma rdtsc_value_order_witness :
  is_uint32 1 /\ is_uint32 0xFFFFFFFF /\ is_uint32 2 /\ is_uint32 0
  /\ (rdtsc_value 1 0xFFFFFFFF <= rdtsc_value 2 0
      <-> 1 < 2 \/ (1 = 2 /\ 0xFFFFFFFF <= 0)).
Proof.
  split; [ in_range | ].
  split; [ in_range | ].
  split; [ in_range | ].
  split; [ in_range | ].
  apply (rdtsc_value_order 1 0xFFFFFFFF 2 0); in_range.
Defined.

(** X4. On a core the call hands back the counter itself: the two halves
    the instruction splits the 64-bit counter into are joined into the
    same value again, and the core is left as it was. *)
Theorem rdtsc_reads_counter (c : Core) :
  tsc_available c = true -> Core_ok c ->
  rdtsc c = Some (tsc c, c).
Proof.
  intros Hc Hok. rewrite rdtsc_Core, Hc.
  rewrite (to_uint64_id (tsc c) Hok). reflexivity.
Qed.

Lemma rdtsc_reads_counter_witness :
  tsc_available (mkCore 0xFEDCBA9876543210 true (fun _ => 0)) = true
  /\ Core_ok (mkCore 0xFEDCBA9876543210 true (fun _ => 0))
  /\ rdtsc (mkCore 0xFEDCBA9876543210 true (fun _ => 0))
     = Some (tsc (mkCore 0xFEDCBA9876543210 true (fun _ => 0)),
             mkCore 0xFEDCBA9876543210 true (fun _ => 0)).
Proof.
  split; [ reflexivity | split; [ in_range | ] ].
  apply (rdtsc_reads_counter (mkCore 0xFEDCBA9876543210 true (fun _ => 0))).
  - reflexivity.
  - in_range.
Defined.

(** X5. The difference of two reads measures the cycles between them:
    when [d] cycles pass on the core between two calls, with
    [0 <= d < 2^64], the 64-bit difference [(b - a) mod 2^64] of the
    values returned is [d], also when the counter wraps in between. *)
Theorem rdtsc_difference (c : Core) (d : Z) :
  tsc_available c = true ->
  0 <= d < 2 ^ 64 ->
  exists a b,
    rdtsc c = Some (a, c)
    /\ rdtsc (elapse d c) = Some (b, elapse d c)
    /\ to_uint64 (b - a) = d.
Proof.
  intros Hc Hd.
  exists (to_uint64 (tsc c)), (to_uint64 (tsc c + d)).
  rewrite !rdtsc_Core, elapse_available, Hc.
  cbn [elapse tsc].
  rewrite (to_uint64_id (to_uint64 (tsc c + d))) by apply to_uint64_range.
  repeat split.
  unfold to_uint64, wrap.
  rewrite <- Zminus_mod.
  replace (tsc c + d - tsc c) with d by lia.
  apply Z.mod_small. exact Hd.
Qed.

Lemma rdtsc_difference_witness :
  tsc_available (mkCore 0xFFFFFFFFFFFFFFF0 true (fun _ => 0)) = true
  /\ 0 <= 0x20 < 2 ^ 64
  /\ exists a b,
       rdtsc (mkCore 0xFFFFFFFFFFFFFFF0 true (fun _ => 0))
       = Some (a, mkCore 0xFFFFFFFFFFFFFFF0 true (fun _ => 0))
       /\ rdtsc (elapse 0x20 (mkCore 0xFFFFFFFFFFFFFFF0 true (fun _ => 0)))
          = Some (b, elapse 0x20 (mkCore 0xFFFFFFFFFFFFFFF0 true (fun _ => 0)))
       /\ to_uint64 (b - a) = 0x20.
Proof.
  split; [ reflexivity | split; [ in_range | ] ].
  apply (rdtsc_difference (mkCore 0xFFFFFFFFFFFFFFF0 true (fun _ => 0)) 0x20).
  - reflexivity.
  - in_range.
Defined.

(** X6. Across a wrap of the counter the order of two reads is lost: when
    the [d] cycles between two calls carry the counter past the 64-bit
    boundary, the later call returns [a + d - 2^64], which is strictly
    less than the earlier value [a]. *)
Theorem rdtsc_wraps (c : Core) (d : Z) :
  tsc_available c = true -> Core_ok c ->
  0 <= d < 2 ^ 64 -> 2 ^ 64 <= tsc c + d ->
  exists a b,
    rdtsc c = Some (a, c)
    /\ rdtsc (elapse d c) = Some (b, elapse d c)
    /\ b = a + d - 2 ^ 64
    /\ b < a.
Proof.
  intros Hc Hok Hd Hwrap. unfold Core_ok, is_uint64 in Hok.
  assert (Hb : to_uint64 (tsc c + d) = tsc c + d - 2 ^ 64).
  { unfold to_uint64, wrap. symmetry.
    apply (Z.mod_unique (tsc c + d) (2 ^ 64) 1); lia. }
  exists (tsc c), (tsc c + d - 2 ^ 64).
  rewrite !rdtsc_Core, elapse_available, Hc.
  cbn [elapse tsc]. rewrite Hb.
  rewrite (to_uint64_id (tsc c)) by exact Hok.
  rewrite (to_uint64_id (tsc c + d - 2 ^ 64)) by (unfold is_uint64; lia).
  repeat split. lia.
Qed.

Lemma rdtsc_wraps_witness :
  tsc_available (mkCore 0xFFFFFFFFFFFFFFFF true (fun _ => 0)) = true
  /\ Core_ok (mkCore 0xFFFFFFFFFFFFFFFF true (fun _ => 0))
  /\ 0 <= 1 < 2 ^ 64
  /\ 2 ^ 64 <= tsc (mkCore 0xFFFFFFFFFFFFFFFF true (fun _ => 0)) + 1
  /\ exists a b,
       rdtsc (mkCore 0xFFFFFFFFFFFFFFFF true (fun _ => 0))
       = Some (a, mkCore 0xFFFFFFFFFFFFFFFF true (fun _ => 0))
       /\ rdtsc (elapse 1 (mkCore 0xFFFFFFFFFFFFFFFF true (fun _ => 0)))
          = Some (b, elapse 1 (mkCore 0xFFFFFFFFFFFFFFFF true (fun _ => 0)))
       /\ b = a + 1 - 2 ^ 64
       /\ b < a.
Proof.
  split; [ reflexivity | ].
  split; [ in_range | ].
  split; [ in_range | ].
  split; [ discriminate | ].
  apply (rdtsc_wraps (mkCore 0xFFFFFFFFFFFFFFFF true (fun _ => 0)) 1).
  - reflexivity.
  - in_range.
  - in_range.
  - discriminate.
Defined.

Lemma total_nonneg ds :
  Forall (fun d => 0 <= d) ds -> 0 <= fold_right Z.add 0 ds.
Proof.
  induction 1 as [ | d ds Hd _ IH ]; cbn [fold_right]; lia.
Qed.

(** While the counter does not wrap, the results of a sequence of calls
    are in order and none is below the counter at the start. *)
Lemma calls_in_order ds : forall c,
  tsc_available c = true -> Core_ok c ->
  Forall (fun d => 0 <= d) ds ->
  tsc c + fold_right Z.add 0 ds < 2 ^ 64 ->
  exists vs,
    calls ds c = Some (vs, idle ds c)
    /\ StronglySorted Z.le vs
    /\ Forall (Z.le (tsc c)) vs.
Proof.
  induction ds as [ | d ds IH ]; intros c Hc Hok Hds Hsum.
  - exists []. repeat split; constructor.
  - inversion Hds as [ | d0 ds0 Hd Hrest ]; subst.
    pose proof (total_nonneg ds Hrest) as Hnn.
    cbn [fold_right] in Hsum. unfold Core_ok, is_uint64 in Hok.
    assert (Htsc : tsc (elapse d c) = tsc c + d).
    { cbn [elapse tsc]. apply to_uint64_id. unfold is_uint64. lia. }
    destruct (IH (elapse d c)) as [vs [Hvs [Hsorted Hfrom]]].
    + rewrite elapse_available. exact Hc.
    + apply elapse_ok.
    + exact Hrest.
    + rewrite Htsc. lia.
    + assert (Hlow : Forall (Z.le (tsc c)) vs).
      { revert Hfrom. apply Forall_impl. intros v Hv. rewrite Htsc in Hv. lia. }
      exists (tsc c :: vs). cbn [calls].
      rewrite rdtsc_Core, Hc, (to_uint64_id (tsc c) Hok), Hvs.
      repeat split.
      * constructor; assumption.
      * constructor; [ lia | exact Hlow ].
Qed.

(** X7. Any number of consecutive calls on one core, with non-negative
    amounts of work between them and the counter not reaching the 64-bit
    boundary over the whole stretch, all return, and the values come back
    in non-decreasing order. *)
Theorem calls_sorted (ds : list Z) (c : Core) :
  tsc_available c = true -> Core_ok c ->
  Forall (fun d => 0 <= d) ds ->
  tsc c + fold_right Z.add 0 ds < 2 ^ 64 ->
  exists vs,
    calls ds c = Some (vs, idle ds c)
    /\ length vs = length ds
    /\ StronglySorted Z.le vs.
Proof.
  intros Hc Hok Hds Hsum.
  destruct (calls_in_order ds c Hc Hok Hds Hsum) as [vs [Hvs [Hsorted _]]].
  exists vs. split; [ exact Hvs | split; [ | exact Hsorted ] ].
  destruct (calls_idle ds c Hc) as [vs' [Hvs' Hlen]].
  rewrite Hvs in Hvs'. injection Hvs' as Heq. subst vs'. exact Hlen.
Qed.

Lemma calls_sorted_witness :
  tsc_available (mkCore 0xFFFFFFFE true (fun _ => 0)) = true
  /\ Core_ok (mkCore 0xFFFFFFFE true (fun _ => 0))
  /\ Forall (fun d => 0 <= d) [1; 0; 5]
  /\ tsc (mkCore 0xFFFFFFFE true (fun _ => 0)) + fold_right Z.add 0 [1; 0; 5]
     < 2 ^ 64
  /\ exists vs,
       calls [1; 0; 5] (mkCore 0xFFFFFFFE true (fun _ => 0))
       = Some (vs, idle [1; 0; 5] (mkCore 0xFFFFFFFE true (fun _ => 0)))
       /\ length vs = length [1; 0; 5]
       /\ StronglySorted Z.le vs.
Proof.
  split; [ reflexivity | ].
  split; [ in_range | ].
  split; [ repeat constructor; discriminate | ].
  split; [ reflexivity | ].
  apply (calls_sorted [1; 0; 5] (mkCore 0xFFFFFFFE true (fun _ => 0))).
  - reflexivity.
  - in_range.
  - repeat constructor; discriminate.
  - reflexivity.
Defined.
